(** * response-utils: a shallow embedding of the Go package [responseutils]

    The package standardises the JSON responses of a gin web handler:
    - [models.go] holds the wire structures and the [ResponseError] type
      with its [Error] method;
    - the emitters ([SuccessResponse], [ErrorResponse], ...) and
      [CalculatePagination];
    - the error codes, [NewResponseError], [WithDetails] and the named
      error constructors.

    Modelling decisions, each following the Go source:
    - [int] is a 64-bit two's-complement integer held in [Z]; arithmetic
      wraps explicitly, and integer division is the truncating one of Go,
      panicking on a zero divisor;
    - [string] is a byte string; [fmt.Sprintf] with [%s] verbs is
      concatenation;
    - [interface{}] values are the data a handler hands to the JSON encoder:
      nil, booleans, integers, strings, slices and string-keyed maps;
    - [*ResponseError] is a pointer into a store of structs, and a
      [map[string]interface{}] is a reference into a store of maps, so that
      in-place mutation, aliasing, nil pointers and nil maps are visible;
    - a Go panic is an outcome of its own, carrying the store it leaves;
    - the gin context (an external collaborator) is the sequence of calls
      the package makes on it: [c.JSON(code, obj)] and [c.Status(code)].
      A call is recorded as made; what the framework does with it is not
      part of the package and is not modelled. *)

From Stdlib Require Import ZArith QArith Qround.
From stdpp Require Import base option gmap strings list fin_maps.

Local Set Warnings "-register-all".
Local Open Scope string_scope.
Local Open Scope Z_scope.
Local Open Scope list_scope.

(** ** Go values *)

(** The values an [interface{}] holds here. [Map None] is a nil map boxed in
    an interface (it encodes as JSON null), [Nil] the nil interface. *)
Inductive any : Type :=
  | Nil
  | Bool (b : bool)
  | Int (n : Z)
  | Str (s : string)
  | Slice (l : list any)
  | Map (m : option (gmap string any)).

(** Addresses of heap objects. *)
Abbreviation loc := positive.

(** ** models.go: the structures *)

(** [Response]: [json:"success"], [json:"data,omitempty"],
    [json:"error,omitempty"], [json:"message,omitempty"]. *)
Record Response := {
  Response_Success : bool;
  Response_Data : any;
  Response_Error : any;
  Response_Message : string
}.

(** [Pagination]: four [int] fields, none omitted on the wire. *)
Record Pagination := {
  Page : Z;
  PageSize : Z;
  Total : Z;
  TotalPages : Z
}.

(** [ListResponse]: [Pagination] is a [*Pagination]; the package only reads
    it, so the pointer is the value it points to, or [None] for nil. *)
Record ListResponse := {
  ListResponse_Success : bool;
  ListResponse_Data : any;
  ListResponse_Pagination : option Pagination
}.

(** [ResponseError]: [Details] is a map reference, [None] being the nil map
    of a struct whose [Details] was never initialised. *)
Record ResponseError := {
  Code : string;
  Message : string;
  StatusCode : Z;
  Details : option loc
}.

(** ** The store, panics, and the monad the package runs in *)

Record store := {
  errs : gmap loc ResponseError;
  maps : gmap loc (gmap string any)
}.

Definition empty_store : store := {| errs := ∅; maps := ∅ |}.

(** The run-time panics the package can raise. [dangling] is not one of
    Go's: it marks a store in which a non-nil reference has no object,
    which a garbage-collected heap never is. *)
Inductive panic : Type :=
  | nil_dereference      (* invalid memory address or nil pointer dereference *)
  | nil_map_assignment   (* assignment to entry in nil map *)
  | divide_by_zero       (* integer divide by zero *)
  | dangling.

Inductive outcome (A : Type) : Type :=
  | Ok (a : A) (s : store)
  | Panic (p : panic) (s : store).
Arguments Ok {A} a s.
Arguments Panic {A} p s.

Definition M (A : Type) : Type := store → outcome A.

Definition ret {A} (a : A) : M A := λ s, Ok a s.

Definition bind {A B} (m : M A) (k : A → M B) : M B :=
  λ s, match m s with
       | Ok a s' => k a s'
       | Panic p s' => Panic p s'
       end.

Definition throw {A} (p : panic) : M A := λ s, Panic p s.

Notation "'let*' x ':=' m 'in' k" := (bind m (λ x, k))
  (at level 10, x name, m at level 100, k at level 200, only parsing).

(** The store an outcome leaves behind, normal or panicking. *)
Definition final_store {A} (o : outcome A) : store :=
  match o with Ok _ s => s | Panic _ s => s end.

(** [p.f] on a [*ResponseError]: reading through the pointer. *)
Definition deref (p : option loc) : M ResponseError :=
  λ s, match p with
       | None => Panic nil_dereference s
       | Some l => match errs s !! l with
                   | Some e => Ok e s
                   | None => Panic dangling s
                   end
       end.

(** [&ResponseError{...}]: a new struct at an address not in use. *)
Definition new_struct (e : ResponseError) : M (option loc) :=
  λ s, let l := fresh (dom (errs s)) in
       Ok (Some l) {| errs := <[l := e]> (errs s); maps := maps s |}.

(** [make(map[string]interface{})]: a new, empty, non-nil map. *)
Definition make_map : M (option loc) :=
  λ s, let r := fresh (dom (maps s)) in
       Ok (Some r) {| errs := errs s; maps := <[r := ∅]> (maps s) |}.

(** [m[key] = value]: an upsert in place; a nil map panics. *)
Definition map_assign (m : option loc) (key : string) (value : any) : M unit :=
  λ s, match m with
       | None => Panic nil_map_assignment s
       | Some r => match maps s !! r with
                   | Some d => Ok tt {| errs := errs s;
                                         maps := <[r := <[key := value]> d]> (maps s) |}
                   | None => Panic dangling s
                   end
       end.

(** The contents of a map at the moment it is encoded; nil stays nil. *)
Definition map_contents (m : option loc) : M (option (gmap string any)) :=
  λ s, match m with
       | None => Ok None s
       | Some r => match maps s !! r with
                   | Some d => Ok (Some d) s
                   | None => Panic dangling s
                   end
       end.

(** ** Values of the interface type [error] *)

(** A value of type [error] is the nil interface, a [*ResponseError]
    (possibly a nil pointer under that dynamic type), or a value of some
    other type, of which the package uses only what [Error()] returns. *)
Inductive error : Type :=
  | error_nil
  | error_ResponseError (p : option loc)
  | error_other (msg : string).

(** models.go, [func (e *ResponseError) Error() string]:
    [fmt.Sprintf("[%s] %s", e.Code, e.Message)]. *)
Definition ResponseError_Error (e : option loc) : M string :=
  let* r := deref e in
  ret ("[" +:+ Code r +:+ "] " +:+ Message r).

(** [err.Error()] through the interface; on the nil interface it panics. *)
Definition error_Error (err : error) : M string :=
  match err with
  | error_nil => throw nil_dereference
  | error_ResponseError p => ResponseError_Error p
  | error_other msg => ret msg
  end.

(** ** Machine integers *)

Definition int_min : Z := - 2 ^ 63.
Definition int_max : Z := 2 ^ 63 - 1.
Definition is_int (z : Z) : Prop := int_min ≤ z ≤ int_max.

(** Two's-complement wrap-around of an exact result. *)
Definition wrap (z : Z) : Z := (z + 2 ^ 63) `mod` 2 ^ 64 - 2 ^ 63.

Inductive result (A : Type) : Type :=
  | Done (a : A)
  | Fault (p : panic).
Arguments Done {A} a.
Arguments Fault {A} p.

(** Go's [x / y]: truncated toward zero; a zero divisor panics. *)
Definition int_quo (x y : Z) : result Z :=
  if decide (y = 0) then Fault divide_by_zero else Done (wrap (x `quot` y)).

(** Go's [x % y]: the remainder of the truncated division (sign of [x]). *)
Definition int_rem (x y : Z) : result Z :=
  if decide (y = 0) then Fault divide_by_zero else Done (wrap (x `rem` y)).

(** [x++]. *)
Definition int_incr (x : Z) : Z := wrap (x + 1).

(** ** net/http status codes used by the package *)
Module http.
Definition StatusOK : Z := 200.
Definition StatusCreated : Z := 201.
Definition StatusAccepted : Z := 202.
Definition StatusNoContent : Z := 204.
Definition StatusBadRequest : Z := 400.
Definition StatusUnauthorized : Z := 401.
Definition StatusForbidden : Z := 403.
Definition StatusNotFound : Z := 404.
Definition StatusConflict : Z := 409.
Definition StatusInternalServerError : Z := 500.
End http.

(** ** The gin context *)

(** What [c.JSON] is given to encode. *)
Inductive payload : Type :=
  | payload_Response (r : Response)
  | payload_ListResponse (l : ListResponse).

(** The calls the package makes on a [*gin.Context], in order. *)
Inductive call : Type :=
  | JSON (code : Z) (obj : payload)
  | Status (code : Z).

Abbreviation Context := (list call).

(** [c.JSON(code, obj)], recorded as made. What gin and net/http then do
    with the call is outside the package: they panic on a status from 1 to
    99 or above 999, keep 200 for a status below 1, and send no body for
    1xx, 204 and 304. So an [Ok] outcome of an emitter says that the
    package's own code reached the call with these arguments, and not that
    the framework completed the write. *)
Definition c_JSON (c : Context) (code : Z) (obj : payload) : M Context :=
  ret (c ++ [JSON code obj]).

(** [c.Status(code)], recorded as made. *)
Definition c_Status (c : Context) (code : Z) : M Context :=
  ret (c ++ [Status code]).

(** The bodies handed to the context, and the status codes set on it. *)
Definition bodies (c : Context) : list payload :=
  omap (λ x, match x with JSON _ obj => Some obj | Status _ => None end) c.

Definition statuses (c : Context) : list Z :=
  (λ x, match x with JSON code _ => code | Status code => code end) <$> c.

(** ** The wire shape, from the struct tags of models.go *)

(** [encoding/json] drops an [omitempty] field of interface type when it is
    the nil interface, and one of string type when it is empty. *)
Definition omitempty_any (key : string) (v : any) (o : gmap string any)
  : gmap string any :=
  match v with Nil => o | _ => <[key := v]> o end.

Definition omitempty_string (key : string) (v : string) (o : gmap string any)
  : gmap string any :=
  match v with "" => o | _ => <[key := Str v]> o end.

Definition Pagination_json (p : Pagination) : any :=
  Map (Some {[ "page" := Int (Page p); "page_size" := Int (PageSize p);
               "total" := Int (Total p); "total_pages" := Int (TotalPages p) ]}).

Definition Response_json (r : Response) : any :=
  Map (Some (omitempty_any "data" (Response_Data r)
            (omitempty_any "error" (Response_Error r)
            (omitempty_string "message" (Response_Message r)
            {[ "success" := Bool (Response_Success r) ]})))).

Definition ListResponse_json (l : ListResponse) : any :=
  Map (Some (match ListResponse_Pagination l with
             | None => id
             | Some p => <["pagination" := Pagination_json p]>
             end
             {[ "success" := Bool (ListResponse_Success l);
                "data" := ListResponse_Data l ]})).

Definition payload_json (obj : payload) : any :=
  match obj with
  | payload_Response r => Response_json r
  | payload_ListResponse l => ListResponse_json l
  end.

(** ** Error codes, [NewResponseError], [WithDetails] *)

Definition ErrCodeBadRequest : string := "BAD_REQUEST".
Definition ErrCodeUnauthorized : string := "UNAUTHORIZED".
Definition ErrCodeForbidden : string := "FORBIDDEN".
Definition ErrCodeNotFound : string := "NOT_FOUND".
Definition ErrCodeConflict : string := "CONFLICT".
Definition ErrCodeValidation : string := "VALIDATION_ERROR".
Definition ErrCodeInternalServer : string := "INTERNAL_SERVER_ERROR".
Definition ErrCodeDatabase : string := "DATABASE_ERROR".
Definition ErrCodeInvalidInput : string := "INVALID_INPUT".
Definition ErrCodeMissingHeader : string := "MISSING_HEADER".
Definition ErrCodeInvalidUUID : string := "INVALID_UUID".
Definition ErrCodeDuplicateEntry : string := "DUPLICATE_ENTRY".
Definition ErrCodeForeignKeyViolation : string := "FOREIGN_KEY_VIOLATION".
Definition ErrCodeInvalidBody : string := "INVALID_BODY".
Definition ErrUserAccountLocked : string := "ACCOUNT_LOCKED".
Definition ErrUnauthorizedError : string := "UNAUTHORIZED_ERROR".

(** [NewResponseError]: the map is made, then the struct that holds it. *)
Definition NewResponseError (code message : string) (statusCode : Z)
  : M (option loc) :=
  let* details := make_map in
  new_struct {| Code := code; Message := message;
                StatusCode := statusCode; Details := details |}.

(** [WithDetails]: [e.Details[key] = value; return e]. *)
Definition WithDetails (e : option loc) (key : string) (value : any)
  : M (option loc) :=
  let* r := deref e in
  let* _ := map_assign (Details r) key value in
  ret e.

(** ** The named constructors *)

Definition BadRequest (message : string) : M (option loc) :=
  NewResponseError ErrCodeBadRequest message http.StatusBadRequest.

Definition Unauthorized (message : string) : M (option loc) :=
  NewResponseError ErrCodeUnauthorized message http.StatusUnauthorized.

Definition Forbidden (message : string) : M (option loc) :=
  NewResponseError ErrCodeForbidden message http.StatusForbidden.

Definition NotFound (resource : string) : M (option loc) :=
  NewResponseError ErrCodeNotFound (resource +:+ " not found")
    http.StatusNotFound.

Definition Conflict (message : string) : M (option loc) :=
  NewResponseError ErrCodeConflict message http.StatusConflict.

Definition ValidationError (message : string) : M (option loc) :=
  NewResponseError ErrCodeValidation message http.StatusBadRequest.

Definition InternalServerError (message : string) : M (option loc) :=
  NewResponseError ErrCodeInternalServer message
    http.StatusInternalServerError.

(** The receiver [NewResponseError(...)] is evaluated before the argument
    [err.Error()], calls being made in lexical order. *)
Definition DatabaseError (err : error) : M (option loc) :=
  let* e := NewResponseError ErrCodeDatabase "Database operation failed"
              http.StatusInternalServerError in
  let* msg := error_Error err in
  WithDetails e "error" (Str msg).

Definition InvalidInput (field reason : string) : M (option loc) :=
  NewResponseError ErrCodeInvalidInput
    ("Invalid input for field '" +:+ field +:+ "': " +:+ reason)
    http.StatusBadRequest.

Definition MissingHeader (header : string) : M (option loc) :=
  NewResponseError ErrCodeMissingHeader
    ("Missing required header: " +:+ header) http.StatusBadRequest.

Definition InvalidUUID (field : string) : M (option loc) :=
  NewResponseError ErrCodeInvalidUUID
    ("Invalid UUID format for field '" +:+ field +:+ "'")
    http.StatusBadRequest.

Definition DuplicateEntry (resource : string) : M (option loc) :=
  NewResponseError ErrCodeDuplicateEntry (resource +:+ " already exists")
    http.StatusConflict.

Definition ForeignKeyViolation (message : string) : M (option loc) :=
  NewResponseError ErrCodeForeignKeyViolation message http.StatusBadRequest.

Definition UnauthorizedError (message : string) : M (option loc) :=
  NewResponseError ErrCodeUnauthorized message http.StatusUnauthorized.

Definition VersionExistsError (versionNumber : string) : M (option loc) :=
  NewResponseError ErrCodeConflict
    ("Version " +:+ versionNumber +:+ " already exists") http.StatusConflict.

(** ** The emitters and [CalculatePagination] *)

Definition SuccessResponse (c : Context) (statusCode : Z) (data : any)
    (message : string) : M Context :=
  c_JSON c statusCode
    (payload_Response {| Response_Success := true; Response_Data := data;
                         Response_Error := Nil; Response_Message := message |}).

(** The type assertion of [err] to [*ResponseError] succeeds on the dynamic type
    alone, so also for a nil pointer of that type; the nil interface and
    every other dynamic type take the second branch. *)
Definition ErrorResponse (c : Context) (err : error) : M Context :=
  match err with
  | error_ResponseError appErr =>
      let* r := deref appErr in
      let* details := map_contents (Details r) in
      c_JSON c (StatusCode r)
        (payload_Response
           {| Response_Success := false; Response_Data := Nil;
              Response_Error :=
                Map (Some {[ "code" := Str (Code r);
                             "message" := Str (Message r);
                             "details" := Map details ]});
              Response_Message := "" |})
  | _ =>
      let* msg := error_Error err in
      c_JSON c http.StatusInternalServerError
        (payload_Response
           {| Response_Success := false; Response_Data := Nil;
              Response_Error :=
                Map (Some {[ "code" := Str ErrCodeInternalServer;
                             "message" := Str "An unexpected error occurred";
                             "details" := Map (Some {[ "error" := Str msg ]}) ]});
              Response_Message := "" |})
  end.

Definition CreatedResponse (c : Context) (data : any) (message : string)
  : M Context :=
  SuccessResponse c http.StatusCreated data message.

Definition UpdatedResponse (c : Context) (data : any) (message : string)
  : M Context :=
  SuccessResponse c http.StatusAccepted data message.

Definition OKResponse (c : Context) (data : any) (message : string)
  : M Context :=
  SuccessResponse c http.StatusOK data message.

Definition NoContentResponse (c : Context) : M Context :=
  c_Status c http.StatusNoContent.

Definition ListResponseWithPagination (c : Context) (data : any)
    (pagination : option Pagination) : M Context :=
  c_JSON c http.StatusOK
    (payload_ListResponse {| ListResponse_Success := true;
                             ListResponse_Data := data;
                             ListResponse_Pagination := pagination |}).

(** [CalculatePagination]: the result is a pointer to a struct made by the
    call and reachable from nowhere else, so it is the struct itself. *)
Definition CalculatePagination (page pageSize total : Z) : result Pagination :=
  let page := if decide (page < 1) then 1 else page in
  let pageSize := if decide (pageSize < 1) then 20 else pageSize in
  match int_quo total pageSize, int_rem total pageSize with
  | Done q, Done r =>
      let totalPages := if decide (r ≠ 0) then int_incr q else q in
      Done {| Page := page; PageSize := pageSize;
              Total := total; TotalPages := totalPages |}
  | Fault p, _ | _, Fault p => Fault p
  end.

(** ** Reference notions the statements below compare the code with *)

(** The exact floor and ceiling of the rational number [a / b]. *)
Definition floor_ratio (a b : Z) : Z := Qfloor (inject_Z a / inject_Z b)%Q.
Definition ceil_ratio (a b : Z) : Z := Qceiling (inject_Z a / inject_Z b)%Q.

(** The page count in the words of the specification: the floor of
    [total / pageSize], plus one when [total mod pageSize] is not zero, with
    floor and mod taken mathematically. *)
Definition spec_total_pages (total pageSize : Z) : Z :=
  floor_ratio total pageSize
  + (if decide (total `mod` pageSize ≠ 0) then 1 else 0).

(** The two guards at the head of [CalculatePagination]. *)
Definition clamp_page (page : Z) : Z := if decide (page < 1) then 1 else page.
Definition clamp_pageSize (pageSize : Z) : Z :=
  if decide (pageSize < 1) then 20 else pageSize.

(** The contents of the details mapping of the struct [p] points to: [None]
    when [p] is nil, when the struct has a nil [Details], or when a
    reference has no object. *)
Definition details_of (s : store) (p : option loc) : option (gmap string any) :=
  l ← p; e ← errs s !! l; r ← Details e; maps s !! r.
Arguments details_of : simpl never.

(** An error the emitter can read: not the nil interface and not a nil
    pointer; a [*ResponseError] points to a struct of the store whose
    [Details] is nil or a map of the store. *)
Definition readable (s : store) (err : error) : Prop :=
  match err with
  | error_nil => False
  | error_ResponseError p =>
      ∃ l e, p = Some l ∧ errs s !! l = Some e
             ∧ (Details e = None ∨ ∃ r, Details e = Some r ∧ is_Some (maps s !! r))
  | error_other _ => True
  end.

(** [e.WithDetails(k1, v1).WithDetails(k2, v2)...]: a fluent chain. *)
Fixpoint WithDetails_chain (e : option loc) (kvs : list (string * any))
  : M (option loc) :=
  match kvs with
  | [] => ret e
  | (key, value) :: kvs =>
      let* e' := WithDetails e key value in WithDetails_chain e' kvs
  end.

(** The named constructors taking strings, as one family of calls. *)
Inductive factory : Type :=
  | call_BadRequest (message : string)
  | call_Unauthorized (message : string)
  | call_Forbidden (message : string)
  | call_NotFound (resource : string)
  | call_Conflict (message : string)
  | call_ValidationError (message : string)
  | call_InternalServerError (message : string)
  | call_InvalidInput (field reason : string)
  | call_MissingHeader (header : string)
  | call_InvalidUUID (field : string)
  | call_DuplicateEntry (resource : string)
  | call_ForeignKeyViolation (message : string)
  | call_UnauthorizedError (message : string)
  | call_VersionExistsError (versionNumber : string).

Definition run_factory (f : factory) : M (option loc) :=
  match f with
  | call_BadRequest message => BadRequest message
  | call_Unauthorized message => Unauthorized message
  | call_Forbidden message => Forbidden message
  | call_NotFound resource => NotFound resource
  | call_Conflict message => Conflict message
  | call_ValidationError message => ValidationError message
  | call_InternalServerError message => InternalServerError message
  | call_InvalidInput field reason => InvalidInput field reason
  | call_MissingHeader header => MissingHeader header
  | call_InvalidUUID field => InvalidUUID field
  | call_DuplicateEntry resource => DuplicateEntry resource
  | call_ForeignKeyViolation message => ForeignKeyViolation message
  | call_UnauthorizedError message => UnauthorizedError message
  | call_VersionExistsError versionNumber => VersionExistsError versionNumber
  end.

(** The factory table of the specification, row by row: code, status and
    message template. The row of [DatabaseError] is
    [("DATABASE_ERROR", 500, "Database operation failed")]. *)
Definition spec_table (f : factory) : string * Z * string :=
  match f with
  | call_BadRequest msg => ("BAD_REQUEST", 400, msg)
  | call_Unauthorized msg => ("UNAUTHORIZED", 401, msg)
  | call_Forbidden msg => ("FORBIDDEN", 403, msg)
  | call_NotFound resource => ("NOT_FOUND", 404, resource +:+ " not found")
  | call_Conflict msg => ("CONFLICT", 409, msg)
  | call_ValidationError msg => ("VALIDATION_ERROR", 400, msg)
  | call_InternalServerError msg => ("INTERNAL_SERVER_ERROR", 500, msg)
  | call_InvalidInput field reason =>
      ("INVALID_INPUT", 400,
       "Invalid input for field '" +:+ field +:+ "': " +:+ reason)
  | call_MissingHeader header =>
      ("MISSING_HEADER", 400, "Missing required header: " +:+ header)
  | call_InvalidUUID field =>
      ("INVALID_UUID", 400, "Invalid UUID format for field '" +:+ field +:+ "'")
  | call_DuplicateEntry resource =>
      ("DUPLICATE_ENTRY", 409, resource +:+ " already exists")
  | call_ForeignKeyViolation msg => ("FOREIGN_KEY_VIOLATION", 400, msg)
  | call_UnauthorizedError msg => ("UNAUTHORIZED", 401, msg)
  | call_VersionExistsError v =>
      ("CONFLICT", 409, "Version " +:+ v +:+ " already exists")
  end.

(** The bare zero value [ResponseError{}]. *)
Definition zero_ResponseError : ResponseError :=
  {| Code := ""; Message := ""; StatusCode := 0; Details := None |}.

(** The struct [ErrorResponse] hands to [c.JSON], given the three entries of
    its inline [error] map. *)
Definition error_body (code message : string) (details : any) : payload :=
  payload_Response
    {| Response_Success := false; Response_Data := Nil;
       Response_Error := Map (Some {[ "code" := Str code;
                                      "message" := Str message;
                                      "details" := details ]});
       Response_Message := "" |}.

(** A mapping after a sequence of upserts, the first of the list first. *)
Definition upserts (d : gmap string any) (kvs : list (string * any))
  : gmap string any :=
  foldl (λ d kv, <[kv.1 := kv.2]> d) d kvs.

(** * Pagination arithmetic *)

Section arithmetic.
Implicit Types x y z page pageSize total : Z.

Lemma floor_ratio_div a b : 0 < b → floor_ratio a b = a `div` b.
Proof.
  intros Hb. unfold floor_ratio. destruct b as [|b|b]; try lia.
  unfold Qdiv, Qinv, Qmult, Qfloor, inject_Z; simpl.
  by rewrite Z.mul_1_r.
Qed.

Lemma ceil_ratio_div a b : 0 < b → ceil_ratio a b = - ((- a) `div` b).
Proof.
  intros Hb. unfold ceil_ratio, Qceiling.
  assert (Qeq (- (inject_Z a / inject_Z b)) (inject_Z (- a) / inject_Z b)) as ->.
  { unfold Qdiv. rewrite inject_Z_opp. ring. }
  by rewrite <-(floor_ratio_div (- a) b Hb).
Qed.

Lemma ceil_ratio_spec a b n :
  0 < b → ceil_ratio a b = n ↔ (n - 1) * b < a ≤ n * b.
Proof.
  intros Hb. rewrite ceil_ratio_div by done.
  pose proof (Z.div_mod (- a) b) as Hd. pose proof (Z.mod_pos_bound (- a) b Hb).
  split; intros; nia.
Qed.

Lemma wrap_id z : is_int z → wrap z = z.
Proof.
  unfold is_int, int_min, int_max, wrap. intros ?.
  rewrite Z.mod_small; lia.
Qed.

Lemma quot_rem_pos x y :
  0 < y →
  x = y * (x `quot` y) + x `rem` y
  ∧ (0 ≤ x → 0 ≤ x `rem` y < y)
  ∧ (x ≤ 0 → - y < x `rem` y ≤ 0).
Proof.
  intros Hy. split; [apply Z.quot_rem'|]. split; intros Hx.
  - by apply Z.rem_bound_pos.
  - pose proof (Z.rem_bound_pos (- x) y) as Hb.
    rewrite Z.rem_opp_l in Hb by lia. lia.
Qed.

Lemma quot_bounds x y :
  1 ≤ y →
  (0 ≤ x → 0 ≤ x `quot` y ≤ x) ∧ (x ≤ 0 → x ≤ x `quot` y ≤ 0).
Proof.
  intros Hy. destruct (quot_rem_pos x y) as (? & ? & ?); [lia|].
  split; intros ?; nia.
Qed.

Lemma quot_half x y :
  2 ≤ y →
  (0 ≤ x → 2 * (x `quot` y) ≤ x) ∧ (x ≤ 0 → x ≤ 2 * (x `quot` y)).
Proof.
  intros Hy. destruct (quot_rem_pos x y) as (? & ? & ?); [lia|].
  destruct (quot_bounds x y) as [? ?]; [lia|].
  split; intros ?; nia.
Qed.

Lemma rem_bounds x y :
  1 ≤ y →
  (0 ≤ x → 0 ≤ x `rem` y ≤ x) ∧ (x ≤ 0 → x ≤ x `rem` y ≤ 0).
Proof.
  intros Hy. destruct (quot_rem_pos x y) as (? & ? & ?); [lia|].
  destruct (quot_bounds x y) as [? ?]; [done|].
  split; intros ?; nia.
Qed.

Lemma quot_is_int x y : is_int x → 1 ≤ y → is_int (x `quot` y).
Proof.
  unfold is_int, int_min, int_max. intros Hx Hy.
  destruct (quot_bounds x y) as [? ?]; [done|].
  destruct (decide (0 ≤ x)); lia.
Qed.

Lemma rem_is_int x y : is_int x → 1 ≤ y → is_int (x `rem` y).
Proof.
  unfold is_int, int_min, int_max. intros Hx Hy.
  destruct (rem_bounds x y) as [? ?]; [done|].
  destruct (decide (0 ≤ x)); lia.
Qed.

Lemma quot_succ_is_int x y :
  is_int x → 1 ≤ y → x `rem` y ≠ 0 → is_int (x `quot` y + 1).
Proof.
  intros Hx Hy Hr. destruct (decide (y = 1)) as [->|].
  { by rewrite Z.rem_1_r in Hr. }
  destruct (quot_half x y) as [? ?]; [lia|].
  destruct (quot_bounds x y) as [? ?]; [done|].
  revert Hx. unfold is_int, int_min, int_max. intros Hx.
  destruct (decide (0 ≤ x)); lia.
Qed.

Lemma clamp_pageSize_pos pageSize : 1 ≤ clamp_pageSize pageSize.
Proof. unfold clamp_pageSize. case_decide; lia. Qed.

Lemma CalculatePagination_exact page pageSize total :
  is_int total →
  CalculatePagination page pageSize total =
    Done {| Page := clamp_page page;
            PageSize := clamp_pageSize pageSize;
            Total := total;
            TotalPages := total `quot` clamp_pageSize pageSize
              + (if decide (total `rem` clamp_pageSize pageSize ≠ 0)
                 then 1 else 0) |}.
Proof.
  intros Ht. pose proof (clamp_pageSize_pos pageSize) as Hps.
  unfold CalculatePagination. fold (clamp_page page) (clamp_pageSize pageSize).
  unfold int_quo, int_rem, int_incr.
  destruct (decide (clamp_pageSize pageSize = 0)); [lia|].
  rewrite (wrap_id (_ `quot` _)) by by apply quot_is_int.
  rewrite (wrap_id (_ `rem` _)) by by apply rem_is_int.
  destruct (decide (total `rem` clamp_pageSize pageSize ≠ 0)) as [Hr|Hr].
  - by rewrite wrap_id by by apply quot_succ_is_int.
  - by rewrite Z.add_0_r.
Qed.

Lemma quot_rem_nonneg x y :
  0 ≤ x → 0 < y → x `quot` y = x `div` y ∧ x `rem` y = x `mod` y.
Proof.
  intros Hx Hy. split.
  - by apply Z.quot_div_nonneg.
  - by apply Z.rem_mod_nonneg.
Qed.

(** For a negative dividend that is not a multiple of the divisor, the
    truncated quotient is one above the floor. *)
Lemma quot_neg_floor x y :
  x < 0 → 0 < y →
  x `quot` y = x `div` y + (if decide (x `mod` y ≠ 0) then 1 else 0)
  ∧ (x `rem` y ≠ 0 ↔ x `mod` y ≠ 0).
Proof.
  intros Hx Hy. destruct (quot_rem_pos x y) as (Hq & _ & Hr); [done|].
  pose proof (Z.div_mod x y) as Hd. pose proof (Z.mod_pos_bound x y Hy).
  assert (x `quot` y - x `div` y = 0 ∨ x `quot` y - x `div` y = 1)
    as [Hk|Hk] by nia.
  - assert (x `rem` y = x `mod` y) by nia. case_decide; split; lia.
  - assert (x `rem` y = x `mod` y - y) by nia. case_decide; split; lia.
Qed.

(** C5: for every (page, pageSize, total) the call returns, and the value
    it returns has page >= 1 and page_size >= 1; a page below 1 becomes 1
    and a pageSize below 1 becomes 20, while positive inputs are passed
    through unchanged; total is echoed as given. *)
Theorem CalculatePagination_clamps page pageSize total :
  ∃ p, CalculatePagination page pageSize total = Done p
       ∧ 1 ≤ Page p ∧ 1 ≤ PageSize p
       ∧ (page ≤ 0 → Page p = 1)
       ∧ (0 < page → Page p = page)
       ∧ (pageSize ≤ 0 → PageSize p = 20)
       ∧ (0 < pageSize → PageSize p = pageSize)
       ∧ Total p = total.
Proof.
  unfold CalculatePagination, int_quo, int_rem.
  set (ps := if decide (pageSize < 1) then 20 else pageSize).
  assert (1 ≤ ps) by (subst ps; case_decide; lia).
  destruct (decide (ps = 0)); [lia|].
  eexists; split; [done|]; simpl. subst ps.
  repeat case_decide; repeat split; intros; lia.
Qed.

Lemma CalculatePagination_clamps_witness :
  ∃ p, CalculatePagination 0 0 100 = Done p
       ∧ Page p = 1 ∧ PageSize p = 20 ∧ Total p = 100 ∧ TotalPages p = 5.
Proof.
  destruct (CalculatePagination_clamps 0 0 100)
    as (p & Hp & _ & _ & Hpage & _ & Hsize & _ & Htotal).
  exists p. split; [exact Hp|].
  split; [apply Hpage; lia|]. split; [apply Hsize; lia|].
  split; [exact Htotal|].
  vm_compute in Hp. by injection Hp as <-.
Defined.

(** C2, as stated, fails: with pageSize = 2 > 0 and total = -5 the code
    returns total_pages = -1, while the ceiling of -5/2 is -2. *)
Lemma CalculatePagination_negative_total_not_ceiling :
  0 < 2 ∧ is_int (-5)
  ∧ CalculatePagination 1 2 (-5)
    = Done {| Page := 1; PageSize := 2; Total := -5; TotalPages := -1 |}
  ∧ ceil_ratio (-5) 2 = -2
  ∧ ¬ (∀ page pageSize total,
         0 < pageSize → is_int total →
         ∃ p, CalculatePagination page pageSize total = Done p
              ∧ TotalPages p = ceil_ratio total pageSize).
Proof.
  split; [lia|]. split; [by vm_compute|]. split; [by vm_compute|].
  split; [by vm_compute|].
  intros H. destruct (H 1 2 (-5)) as (p & Hp & Hc); [lia|by vm_compute|].
  vm_compute in Hp. injection Hp as <-. by vm_compute in Hc.
Qed.

(** C2, amended: for all (page, pageSize, total) with pageSize > 0 and
    total >= 0, the call returns a Pagination whose total_pages is the
    exact rational ceiling of total/pageSize, whose page is the input
    clamped to at least 1, and whose page_size and total are the inputs. *)
Theorem CalculatePagination_total_pages_ceiling page pageSize total :
  0 < pageSize → 0 ≤ total → is_int total →
  ∃ p, CalculatePagination page pageSize total = Done p
       ∧ TotalPages p = ceil_ratio total pageSize
       ∧ Page p = Z.max 1 page
       ∧ PageSize p = pageSize
       ∧ Total p = total.
Proof.
  intros Hps Ht Hint. rewrite CalculatePagination_exact by done.
  assert (clamp_pageSize pageSize = pageSize) as ->
    by (unfold clamp_pageSize; case_decide; lia).
  eexists; split; [done|]; simpl.
  repeat split; [|unfold clamp_page; case_decide; lia].
  destruct (quot_rem_nonneg total pageSize) as [-> ->]; [done..|].
  symmetry. apply ceil_ratio_spec; [done|].
  pose proof (Z.div_mod total pageSize) as Hd.
  pose proof (Z.mod_pos_bound total pageSize Hps).
  case_decide; nia.
Qed.

Lemma CalculatePagination_total_pages_ceiling_witness :
  ∃ p, CalculatePagination 2 10 95 = Done p
       ∧ TotalPages p = ceil_ratio 95 10
       ∧ Page p = Z.max 1 2 ∧ PageSize p = 10 ∧ Total p = 95.
Proof.
  apply (CalculatePagination_total_pages_ceiling 2 10 95);
    [lia | lia | by vm_compute].
Defined.

(** C3, as stated, fails: the division of the code truncates toward zero
    and does not floor. With pageSize = 2 and total = -5 the code returns
    total_pages = -1 where the floor-and-mod formula gives -2; and with
    total = -1 it returns total_pages = 1, a positive count for a negative
    total. *)
Lemma CalculatePagination_truncates_not_floors :
  (CalculatePagination 1 2 (-5)
     = Done {| Page := 1; PageSize := 2; Total := -5; TotalPages := -1 |}
   ∧ spec_total_pages (-5) 2 = -2)
  ∧ (CalculatePagination 1 2 (-1)
       = Done {| Page := 1; PageSize := 2; Total := -1; TotalPages := 1 |}
     ∧ spec_total_pages (-1) 2 = 0)
  ∧ ¬ (∀ page pageSize total,
         is_int total →
         ∃ p, CalculatePagination page pageSize total = Done p
              ∧ TotalPages p = spec_total_pages total (PageSize p)).
Proof.
  split; [split; by vm_compute|]. split; [split; by vm_compute|].
  intros H. destruct (H 1 2 (-5)) as (p & Hp & Hc); [by vm_compute|].
  vm_compute in Hp. injection Hp as <-. by vm_compute in Hc.
Qed.

(** C3, amended: for every total, also zero or negative (total is not
    clamped), total_pages is the quotient of total by the clamped page size
    truncated toward zero, plus 1 if the remainder is nonzero. For
    total >= 0 this is floor(total/pageSize) plus 1 if total mod pageSize
    is nonzero; for a negative total that is not a multiple of the page
    size it is one more than that. A negative total gives a page count of
    at most 1, and a zero or negative one once total <= -pageSize. *)
Theorem CalculatePagination_total_pages_truncated page pageSize total :
  is_int total →
  ∃ p, CalculatePagination page pageSize total = Done p
       ∧ Total p = total
       ∧ TotalPages p
         = total `quot` PageSize p
           + (if decide (total `rem` PageSize p ≠ 0) then 1 else 0)
       ∧ (0 ≤ total → TotalPages p = spec_total_pages total (PageSize p))
       ∧ (total < 0 →
          TotalPages p
          = spec_total_pages total (PageSize p)
            + (if decide (total `mod` PageSize p ≠ 0) then 1 else 0))
       ∧ (total < 0 → TotalPages p ≤ 1)
       ∧ (total ≤ - PageSize p → TotalPages p ≤ 0).
Proof.
  intros Hint. rewrite CalculatePagination_exact by done.
  eexists; split; [done|]; simpl.
  pose proof (clamp_pageSize_pos pageSize) as Hps.
  set (ps := clamp_pageSize pageSize) in *.
  destruct (quot_bounds total ps) as [Hq0 Hq1]; [done|].
  destruct (quot_rem_pos total ps) as (Hqr & Hr0 & Hr1); [lia|].
  unfold spec_total_pages. rewrite floor_ratio_div by lia.
  repeat split; intros Ht.
  - destruct (quot_rem_nonneg total ps) as [-> ->]; [lia..|].
    by repeat case_decide.
  - destruct (quot_neg_floor total ps) as [-> Hiff]; [lia..|].
    destruct (decide (total `rem` ps ≠ 0)), (decide (total `mod` ps ≠ 0));
      try lia; tauto.
  - case_decide; lia.
  - case_decide; nia.
Qed.

Lemma CalculatePagination_total_pages_truncated_witness :
  ∃ p, CalculatePagination 1 2 (-5) = Done p
       ∧ Total p = -5
       ∧ TotalPages p = -1
       ∧ TotalPages p = spec_total_pages (-5) 2 + 1
       ∧ TotalPages p ≤ 0.
Proof.
  destruct (CalculatePagination_total_pages_truncated 1 2 (-5))
    as (p & Hp & Htot & Htp & _ & Hneg & _ & Hle); [by vm_compute|].
  assert (PageSize p = 2) as Hps
    by (vm_compute in Hp; by injection Hp as <-).
  rewrite Hps in *.
  exists p. split; [exact Hp|]. split; [exact Htot|].
  split; [exact Htp|]. split; [apply Hneg; lia|]. apply Hle; lia.
Defined.
End arithmetic.

(** * The store: constructors and [WithDetails] *)

Section store.
Implicit Types (s : store) (p : option loc) (l r : loc) (e : ResponseError).
Implicit Types (d : gmap string any) (key : string) (value : any).

Lemma details_of_Some s p d :
  details_of s p = Some d ↔
  ∃ l e r, p = Some l ∧ errs s !! l = Some e ∧ Details e = Some r
           ∧ maps s !! r = Some d.
Proof.
  unfold details_of. split.
  - intros H. destruct p as [l|]; [|done]. simpl in H.
    destruct (errs s !! l) as [e|] eqn:He; [|done]. simpl in H.
    destruct (Details e) as [r|] eqn:Hr; [|done]. simpl in H.
    by exists l, e, r.
  - intros (l & e & r & -> & He & Hr & Hd). simpl. rewrite He. simpl.
    by rewrite Hr.
Qed.

Lemma details_of_intro s l e r d :
  errs s !! l = Some e → Details e = Some r → maps s !! r = Some d →
  details_of s (Some l) = Some d.
Proof. intros. apply details_of_Some. by exists l, e, r. Qed.

(** [NewResponseError] makes a map and a struct at unused addresses and
    touches nothing else. *)
Lemma NewResponseError_run code message statusCode s :
  let l := fresh (dom (errs s)) in
  let r := fresh (dom (maps s)) in
  NewResponseError code message statusCode s
  = Ok (Some l)
       {| errs := <[l := {| Code := code; Message := message;
                            StatusCode := statusCode; Details := Some r |}]>
                  (errs s);
          maps := <[r := ∅]> (maps s) |}.
Proof. reflexivity. Qed.

Lemma fresh_lookup_None {A} (m : gmap loc A) : m !! fresh (dom m) = None.
Proof. apply not_elem_of_dom, is_fresh. Qed.

Lemma WithDetails_run s l e r d key value :
  errs s !! l = Some e → Details e = Some r → maps s !! r = Some d →
  WithDetails (Some l) key value s
  = Ok (Some l) {| errs := errs s;
                   maps := <[r := <[key := value]> d]> (maps s) |}.
Proof.
  intros He Hr Hd. unfold WithDetails, bind, deref, map_assign, ret.
  by rewrite He, Hr, Hd.
Qed.

Lemma WithDetails_details s p d key value :
  details_of s p = Some d →
  ∃ s', WithDetails p key value s = Ok p s'
        ∧ details_of s' p = Some (<[key := value]> d)
        ∧ errs s' = errs s.
Proof.
  intros (l & e & r & -> & He & Hr & Hd)%details_of_Some.
  eexists. split; [by eapply WithDetails_run|]. split; [|done].
  eapply details_of_intro; [exact He|exact Hr|]. apply lookup_insert_eq.
Qed.

Lemma WithDetails_nil_map s l e key value :
  errs s !! l = Some e → Details e = None →
  WithDetails (Some l) key value s = Panic nil_map_assignment s.
Proof.
  intros He Hr. unfold WithDetails, bind, deref, map_assign.
  by rewrite He, Hr.
Qed.

Lemma WithDetails_chain_details s p d kvs :
  details_of s p = Some d →
  ∃ s', WithDetails_chain p kvs s = Ok p s'
        ∧ details_of s' p
          = Some (foldl (λ d kv, <[kv.1 := kv.2]> d) d kvs)
        ∧ errs s' = errs s.
Proof.
  revert s d. induction kvs as [|[key value] kvs IH]; intros s d Hd.
  - by exists s.
  - destruct (WithDetails_details s p d key value Hd) as (s1 & Hrun & Hd1 & He1).
    destruct (IH s1 _ Hd1) as (s2 & Hrun2 & Hd2 & He2).
    exists s2. simpl. unfold bind. rewrite Hrun. repeat split; [done..|congruence].
Qed.

(** What every string-taking constructor does, in terms of the code, the
    status and the message it passes to [NewResponseError]. *)
Lemma run_factory_NewResponseError f :
  run_factory f
  = NewResponseError (spec_table f).1.1 (spec_table f).2 (spec_table f).1.2.
Proof. by destruct f. Qed.

(** A message read before an allocation is read again after it. *)
Lemma error_Error_alloc err s msg l e r d :
  error_Error err s = Ok msg s →
  errs s !! l = None → 
  error_Error err {| errs := <[l := e]> (errs s); maps := <[r := d]> (maps s) |}
  = Ok msg {| errs := <[l := e]> (errs s); maps := <[r := d]> (maps s) |}.
Proof.
  destruct err as [|[l'|]|msg']; try done.
  - unfold error_Error, ResponseError_Error, bind, deref, ret. simpl.
    destruct (errs s !! l') as [e'|] eqn:He'; [|done].
    intros [= <-] Hl. rewrite lookup_insert_ne by congruence. by rewrite He'.
  - by intros [= <-].
Qed.

Lemma NewResponseError_details code message statusCode s :
  ∃ l r s',
    NewResponseError code message statusCode s = Ok (Some l) s'
    ∧ errs s !! l = None ∧ maps s !! r = None
    ∧ errs s' = <[l := {| Code := code; Message := message;
                          StatusCode := statusCode; Details := Some r |}]>
                (errs s)
    ∧ maps s' = <[r := ∅]> (maps s)
    ∧ details_of s' (Some l) = Some ∅.
Proof.
  eexists _, _, _. split; [apply NewResponseError_run|]. simpl.
  repeat split; try apply fresh_lookup_None.
  eapply details_of_intro; simpl; [apply lookup_insert_eq|done|].
  apply lookup_insert_eq.
Qed.

Lemma run_factory_details f s :
  ∃ l r e s',
    run_factory f s = Ok (Some l) s'
    ∧ errs s !! l = None ∧ maps s !! r = None
    ∧ errs s' = <[l := e]> (errs s) ∧ maps s' = <[r := ∅]> (maps s)
    ∧ (Code e, StatusCode e, Message e) = spec_table f
    ∧ Details e = Some r
    ∧ details_of s' (Some l) = Some ∅.
Proof.
  rewrite run_factory_NewResponseError.
  destruct (NewResponseError_details (spec_table f).1.1 (spec_table f).2
              (spec_table f).1.2 s) as (l & r & s' & Hrun & Hl & Hr & He & Hm & Hd).
  eexists l, r, _, s'. split; [done|]. split; [done|]. split; [done|].
  split; [exact He|]. split; [done|]. simpl.
  split; [by destruct (spec_table f) as [[? ?] ?]|done].
Qed.

Lemma DatabaseError_details err msg s :
  error_Error err s = Ok msg s →
  ∃ l r e s',
    DatabaseError err s = Ok (Some l) s'
    ∧ errs s !! l = None ∧ maps s !! r = None
    ∧ errs s' = <[l := e]> (errs s)
    ∧ maps s' = <[r := {[ "error" := Str msg ]}]> (maps s)
    ∧ (Code e, StatusCode e, Message e)
      = ("DATABASE_ERROR", 500, "Database operation failed")
    ∧ Details e = Some r
    ∧ details_of s' (Some l) = Some {[ "error" := Str msg ]}.
Proof.
  intros Herr. unfold DatabaseError, bind.
  rewrite NewResponseError_run.
  set (l := fresh (dom (errs s))). set (r := fresh (dom (maps s))).
  assert (errs s !! l = None) as Hl by apply fresh_lookup_None.
  assert (maps s !! r = None) as Hr by apply fresh_lookup_None.
  rewrite (error_Error_alloc err s msg) by done.
  erewrite WithDetails_run;
    [|by apply lookup_insert_eq|done|by apply lookup_insert_eq].
  eexists l, r, _, _. split; [done|]. simpl.
  rewrite insert_insert_eq. repeat split; try done.
  eapply details_of_intro; simpl; [apply lookup_insert_eq|done|].
  apply lookup_insert_eq.
Qed.

(** C6: for every string argument, each named constructor returns a new
    ErrorValue whose code, status and message are those of its row of the
    factory table, with an empty details mapping, and leaves every other
    object as it was; DatabaseError(err) likewise has code DATABASE_ERROR,
    status 500 and message "Database operation failed", and its details
    mapping holds exactly the entry "error", bound to err's message. *)
Theorem factories_follow_table :
  (∀ f s, ∃ l r e s',
      run_factory f s = Ok (Some l) s'
      ∧ errs s !! l = None ∧ maps s !! r = None
      ∧ errs s' = <[l := e]> (errs s) ∧ maps s' = <[r := ∅]> (maps s)
      ∧ (Code e, StatusCode e, Message e) = spec_table f
      ∧ Details e = Some r
      ∧ details_of s' (Some l) = Some ∅)
  ∧ (∀ err msg s,
      error_Error err s = Ok msg s →
      ∃ l r e s',
        DatabaseError err s = Ok (Some l) s'
        ∧ errs s !! l = None ∧ maps s !! r = None
        ∧ errs s' = <[l := e]> (errs s)
        ∧ maps s' = <[r := {[ "error" := Str msg ]}]> (maps s)
        ∧ (Code e, StatusCode e, Message e)
          = ("DATABASE_ERROR", 500, "Database operation failed")
        ∧ Details e = Some r
        ∧ details_of s' (Some l) = Some {[ "error" := Str msg ]}).
Proof.
  split.
  - apply run_factory_details.
  - apply DatabaseError_details.
Qed.

Lemma factories_follow_table_witness :
  ∃ l r e s',
    DatabaseError (error_other "connection refused") empty_store
    = Ok (Some l) s'
    ∧ errs empty_store !! l = None ∧ maps empty_store !! r = None
    ∧ errs s' = <[l := e]> (errs empty_store)
    ∧ maps s' = <[r := {[ "error" := Str "connection refused" ]}]>
                (maps empty_store)
    ∧ (Code e, StatusCode e, Message e)
      = ("DATABASE_ERROR", 500, "Database operation failed")
    ∧ Details e = Some r
    ∧ details_of s' (Some l) = Some {[ "error" := Str "connection refused" ]}.
Proof.
  apply (proj2 factories_follow_table (error_other "connection refused")).
  reflexivity.
Defined.

(** C7: on an ErrorValue (a pointer to a struct whose details mapping is
    initialised, as every constructor leaves it), WithDetails binds the key
    to the given value, returns the receiver itself and does not fail;
    after e.WithDetails(k, v1).WithDetails(k, v2) the mapping is the
    original one with the single entry k bound to v2: the last write wins,
    nothing accumulates, other keys and the other fields are untouched. *)
Theorem WithDetails_last_write_wins s p d key v1 v2 :
  details_of s p = Some d →
  ∃ s1 s2 d1 d2,
    WithDetails p key v1 s = Ok p s1
    ∧ details_of s1 p = Some d1 ∧ d1 !! key = Some v1
    ∧ WithDetails p key v2 s1 = Ok p s2
    ∧ (let* e1 := WithDetails p key v1 in WithDetails e1 key v2) s = Ok p s2
    ∧ details_of s2 p = Some d2
    ∧ d2 = <[key := v2]> d
    ∧ d2 !! key = Some v2
    ∧ (∀ k, k ≠ key → d2 !! k = d !! k)
    ∧ size d2 = size d1
    ∧ errs s2 = errs s.
Proof.
  intros Hd.
  destruct (WithDetails_details s p d key v1 Hd) as (s1 & Hrun1 & Hd1 & He1).
  destruct (WithDetails_details s1 p _ key v2 Hd1) as (s2 & Hrun2 & Hd2 & He2).
  rewrite insert_insert_eq in Hd2.
  exists s1, s2, (<[key := v1]> d), (<[key := v2]> d).
  repeat split; try done.
  - apply lookup_insert_eq.
  - unfold bind. by rewrite Hrun1.
  - apply lookup_insert_eq.
  - intros k Hk. by rewrite lookup_insert_ne.
  - destruct (d !! key) as [v|] eqn:Hk.
    + by rewrite !map_size_insert_Some.
    + by rewrite !map_size_insert_None.
  - congruence.
Qed.

Lemma WithDetails_last_write_wins_witness :
  let s := final_store (NotFound "User" empty_store) in
  let p := Some 1%positive in
  ∃ s1 s2 d1 d2,
    WithDetails p "a" (Int 1) s = Ok p s1
    ∧ details_of s1 p = Some d1 ∧ d1 !! "a" = Some (Int 1)
    ∧ WithDetails p "a" (Int 2) s1 = Ok p s2
    ∧ (let* e1 := WithDetails p "a" (Int 1) in WithDetails e1 "a" (Int 2)) s
      = Ok p s2
    ∧ details_of s2 p = Some d2
    ∧ d2 = <["a" := Int 2]> ∅
    ∧ d2 !! "a" = Some (Int 2)
    ∧ (∀ k, k ≠ "a" → d2 !! k = (∅ : gmap string any) !! k)
    ∧ size d2 = size d1
    ∧ errs s2 = errs s.
Proof.
  intros s p. apply (WithDetails_last_write_wins s p ∅ "a" (Int 1) (Int 2)).
  reflexivity.
Defined.

(** C10: every value made by NewResponseError or by a named constructor
    has an initialised details mapping, empty except for DatabaseError;
    WithDetails keeps it initialised, so a chain of WithDetails calls on a
    constructed value always succeeds and returns that value; on a struct
    whose Details was never initialised, such as the bare zero value,
    WithDetails panics with an assignment to an entry in a nil map and
    changes nothing. *)
Theorem constructed_details_initialised :
  (∀ code message statusCode s, ∃ l s',
      NewResponseError code message statusCode s = Ok (Some l) s'
      ∧ details_of s' (Some l) = Some ∅)
  ∧ (∀ f s, ∃ l s',
      run_factory f s = Ok (Some l) s' ∧ details_of s' (Some l) = Some ∅)
  ∧ (∀ err msg s, error_Error err s = Ok msg s → ∃ l s',
      DatabaseError err s = Ok (Some l) s'
      ∧ details_of s' (Some l) = Some {[ "error" := Str msg ]})
  ∧ (∀ s p key value, is_Some (details_of s p) → ∃ s',
      WithDetails p key value s = Ok p s' ∧ is_Some (details_of s' p))
  ∧ (∀ s p kvs, is_Some (details_of s p) → ∃ s',
      WithDetails_chain p kvs s = Ok p s' ∧ is_Some (details_of s' p))
  ∧ (∀ f kvs s, ∃ l s',
      (let* e := run_factory f in WithDetails_chain e kvs) s = Ok (Some l) s'
      ∧ details_of s' (Some l)
        = Some (foldl (λ d kv, <[kv.1 := kv.2]> d) ∅ kvs))
  ∧ (∀ s l e key value,
      errs s !! l = Some e → Details e = None →
      WithDetails (Some l) key value s = Panic nil_map_assignment s).
Proof.
  pose proof run_factory_details as Hf.
  pose proof DatabaseError_details as Hdb.
  repeat split.
  - intros code message statusCode s.
    destruct (NewResponseError_details code message statusCode s)
      as (l & r & s' & ? & _ & _ & _ & _ & ?). by exists l, s'.
  - intros f s. destruct (Hf f s) as (l & r & e & s' & ? & Hrest).
    exists l, s'. split; [done|]. apply Hrest.
  - intros err msg s Herr.
    destruct (Hdb err msg s Herr) as (l & r & e & s' & ? & Hrest).
    exists l, s'. split; [done|]. apply Hrest.
  - intros s p key value [d Hd].
    destruct (WithDetails_details s p d key value Hd) as (s' & ? & ? & _).
    by exists s'.
  - intros s p kvs [d Hd].
    destruct (WithDetails_chain_details s p d kvs Hd) as (s' & ? & ? & _).
    by exists s'.
  - intros f kvs s. destruct (Hf f s) as (l & r & e & s1 & Hrun & Hrest).
    assert (details_of s1 (Some l) = Some ∅) as Hd by apply Hrest.
    destruct (WithDetails_chain_details s1 (Some l) ∅ kvs Hd)
      as (s' & Hchain & ? & _).
    exists l, s'. unfold bind. by rewrite Hrun.
  - intros s l e key value. apply WithDetails_nil_map.
Qed.

Lemma constructed_details_initialised_witness :
  let s := {| errs := {[ 1%positive := zero_ResponseError ]}; maps := ∅ |} in
  WithDetails (Some 1%positive) "field" (Str "email") s
  = Panic nil_map_assignment s.
Proof.
  intros s.
  destruct constructed_details_initialised as (_ & _ & _ & _ & _ & _ & H).
  apply (H s 1%positive zero_ResponseError); reflexivity.
Defined.
End store.

(** * The emitters *)

Section emitters.
Implicit Types (c : Context) (s : store) (err : error) (data : any).
Implicit Types (l : loc) (e : ResponseError) (d : gmap string any).


(** The emitter on a pointer to a struct: one read of the struct, one of
    its details, one write on the context. *)
Lemma ErrorResponse_pointer c s l e details :
  errs s !! l = Some e →
  map_contents (Details e) s = Ok details s →
  ErrorResponse c (error_ResponseError (Some l)) s
  = Ok (c ++ [JSON (StatusCode e)
                (error_body (Code e) (Message e) (Map details))]) s.
Proof.
  intros He Hm. unfold ErrorResponse, bind, deref. rewrite He, Hm. done.
Qed.

Lemma ErrorResponse_other c s msg :
  ErrorResponse c (error_other msg) s
  = Ok (c ++ [JSON 500
                (error_body "INTERNAL_SERVER_ERROR"
                   "An unexpected error occurred"
                   (Map (Some {[ "error" := Str msg ]})))]) s.
Proof. done. Qed.

Lemma readable_writes c s err :
  readable s err →
  ∃ code message details statusCode,
    ErrorResponse c err s
    = Ok (c ++ [JSON statusCode (error_body code message details)]) s.
Proof.
  destruct err as [|p|msg]; simpl; [done|..].
  - intros (l & e & -> & He & Hd).
    assert (∃ details, map_contents (Details e) s = Ok details s)
      as [details Hm].
    { unfold map_contents. destruct Hd as [->|(r & -> & [d ->])]; eauto. }
    eexists _, _, _, _. by eapply ErrorResponse_pointer.
  - intros _. eexists _, _, _, _. apply ErrorResponse_other.
Qed.

Lemma ErrorResponse_store c err s : final_store (ErrorResponse c err s) = s.
Proof.
  destruct err as [|[l|]|msg]; try done.
  unfold ErrorResponse, bind, deref, map_contents.
  destruct (errs s !! l) as [e|]; [|done].
  destruct (Details e) as [r|]; [|done].
  by destruct (maps s !! r).
Qed.

Lemma bodies_Status c code : bodies (c ++ [Status code]) = bodies c.
Proof. unfold bodies. rewrite omap_app. simpl. by rewrite app_nil_r. Qed.

Lemma statuses_snoc c x :
  statuses (c ++ [x]) = statuses c ++ statuses [x].
Proof. unfold statuses. by rewrite fmap_app. Qed.




(** C4, as stated, fails: on the nil error, and on a nil pointer of type
    *ResponseError, ErrorResponse panics with a nil dereference and writes
    nothing. *)
Lemma ErrorResponse_nil_panics :
  ErrorResponse [] error_nil empty_store = Panic nil_dereference empty_store
  ∧ ErrorResponse [] (error_ResponseError None) empty_store
    = Panic nil_dereference empty_store
  ∧ ¬ (∀ c err s, ∃ c' s', ErrorResponse c err s = Ok c' s').
Proof.
  split; [done|]. split; [done|].
  intros H. by destruct (H [] error_nil empty_store) as (c' & s' & ?).
Qed.

(** C4, amended: for every error that is not nil (a non-nil pointer to a
    ResponseError, or any other error whose Error method returns), the
    code of ErrorResponse raises no panic of its own and makes exactly one
    call on the context, c.JSON with a status and a body, after the calls
    already made; an ErrorValue with an initialised details mapping is
    such an error. SuccessResponse, OKResponse, CreatedResponse,
    UpdatedResponse and ListResponseWithPagination make exactly one c.JSON
    call for every input, the first with the status it is given, and
    NoContentResponse makes exactly one c.Status(204) call and hands over
    no body. No emitter changes the store. The status is handed over
    unchecked; that the framework completes the write is not part of the
    statement. *)
Theorem emitters_make_one_call c s :
  (∀ err, readable s err →
     ∃ code message details statusCode,
       ErrorResponse c err s
       = Ok (c ++ [JSON statusCode (error_body code message details)]) s)
  ∧ (∀ p, is_Some (details_of s p) → readable s (error_ResponseError p))
  ∧ (∀ statusCode data message, ∃ obj,
       SuccessResponse c statusCode data message s
       = Ok (c ++ [JSON statusCode obj]) s)
  ∧ (∀ data message, ∃ obj,
       OKResponse c data message s = Ok (c ++ [JSON 200 obj]) s)
  ∧ (∀ data message, ∃ obj,
       CreatedResponse c data message s = Ok (c ++ [JSON 201 obj]) s)
  ∧ (∀ data message, ∃ obj,
       UpdatedResponse c data message s = Ok (c ++ [JSON 202 obj]) s)
  ∧ (∀ data pagination, ∃ obj,
       ListResponseWithPagination c data pagination s
       = Ok (c ++ [JSON 200 obj]) s)
  ∧ NoContentResponse c s = Ok (c ++ [Status 204]) s
  ∧ bodies (c ++ [Status 204]) = bodies c.
Proof.
  split; [intros err; apply readable_writes|]. split.
  - intros p [d (l & e & r & -> & He & Hr & Hd)%details_of_Some].
    exists l, e. split; [done|]. split; [done|]. right. exists r.
    split; [done|]. by exists d.
  - repeat split; try (intros; by eexists). apply bodies_Status.
Qed.

Lemma emitters_make_one_call_witness :
  let s := final_store (NotFound "User" empty_store) in
  ∃ code message details statusCode,
    ErrorResponse [] (error_ResponseError (Some 1%positive)) s
    = Ok ([] ++ [JSON statusCode (error_body code message details)]) s.
Proof.
  intros s.
  destruct (emitters_make_one_call [] s) as (Hwrites & Hreadable & _).
  apply Hwrites, Hreadable. by exists ∅.
Defined.

(** C8: OKResponse, CreatedResponse and UpdatedResponse are
    SuccessResponse at the fixed status 200, 201 and 202, which writes
    {success:true, data, message} at that status; NoContentResponse sets
    status 204 and writes no body; ListResponseWithPagination writes
    {success:true, data, pagination} at status 200 whatever the data and
    the pagination (the pagination entry is left out when it is nil). *)
Theorem wrappers_fix_status c data message pagination s :
  OKResponse c data message s = SuccessResponse c 200 data message s
  ∧ CreatedResponse c data message s = SuccessResponse c 201 data message s
  ∧ UpdatedResponse c data message s = SuccessResponse c 202 data message s
  ∧ (∀ statusCode,
       SuccessResponse c statusCode data message s
       = Ok (c ++ [JSON statusCode
                     (payload_Response
                        {| Response_Success := true; Response_Data := data;
                           Response_Error := Nil;
                           Response_Message := message |})]) s)
  ∧ NoContentResponse c s = Ok (c ++ [Status 204]) s
  ∧ bodies (c ++ [Status 204]) = bodies c
  ∧ statuses (c ++ [Status 204]) = statuses c ++ [204]
  ∧ ListResponseWithPagination c data pagination s
    = Ok (c ++ [JSON 200
                  (payload_ListResponse
                     {| ListResponse_Success := true;
                        ListResponse_Data := data;
                        ListResponse_Pagination := pagination |})]) s
  ∧ ∃ o, ListResponse_json
           {| ListResponse_Success := true; ListResponse_Data := data;
              ListResponse_Pagination := pagination |} = Map (Some o)
         ∧ o !! "success" = Some (Bool true)
         ∧ o !! "data" = Some data
         ∧ o !! "pagination" = Pagination_json <$> pagination.
Proof.
  repeat split; try done.
  - apply bodies_Status.
  - apply statuses_snoc.
  - eexists. split; [done|]. simpl. by destruct pagination.
Qed.

(** C9: ErrorResponse never mutates the value it consumes: whatever the
    error, and whether the call returns or panics, the store it leaves is
    the store it was given, so the struct behind a *ResponseError keeps
    its code, message and status, and its details mapping keeps its
    contents. *)
Theorem ErrorResponse_does_not_mutate c err s :
  final_store (ErrorResponse c err s) = s
  ∧ (∀ l, errs (final_store (ErrorResponse c err s)) !! l = errs s !! l)
  ∧ (∀ p, details_of (final_store (ErrorResponse c err s)) p
          = details_of s p).
Proof. by rewrite ErrorResponse_store. Qed.
End emitters.

(** * Further properties of [CalculatePagination] *)

Section pagination.
Implicit Types page pageSize total : Z.

(** For a total that is not negative, the page count is the least number
    of pages of the clamped size that hold the total. *)
Lemma CalculatePagination_least page pageSize total :
  0 ≤ total → is_int total →
  ∃ p, CalculatePagination page pageSize total = Done p
       ∧ PageSize p = clamp_pageSize pageSize
       ∧ PageSize p * (TotalPages p - 1) < total ≤ PageSize p * TotalPages p.
Proof.
  intros Ht Hint. rewrite CalculatePagination_exact by done.
  eexists. split; [done|]. split; [done|]. simpl.
  pose proof (clamp_pageSize_pos pageSize) as Hps.
  destruct (quot_rem_pos total (clamp_pageSize pageSize))
    as (Hqr & Hr & _); [lia|]. specialize (Hr Ht).
  case_decide; nia.
Qed.

(** X11: for a total that is not negative, whatever the page size given
    (a non-positive one counts as 20), total_pages pages of page_size items
    hold all the items and one page fewer does not; the count lies between
    0 and total, and is 0 exactly when total is 0. *)
Theorem CalculatePagination_pages_cover page pageSize total :
  0 ≤ total → is_int total →
  ∃ p, CalculatePagination page pageSize total = Done p
       ∧ PageSize p * (TotalPages p - 1) < total ≤ PageSize p * TotalPages p
       ∧ 0 ≤ TotalPages p ≤ total
       ∧ (TotalPages p = 0 ↔ total = 0).
Proof.
  intros Ht Hint.
  destruct (CalculatePagination_least page pageSize total Ht Hint)
    as (p & Hp & Hps & Hcover).
  pose proof (clamp_pageSize_pos pageSize).
  exists p. split; [done|]. split; [done|]. split; [nia|]. split; nia.
Qed.

Lemma CalculatePagination_pages_cover_witness :
  ∃ p, CalculatePagination 3 0 41 = Done p
       ∧ PageSize p * (TotalPages p - 1) < 41 ≤ PageSize p * TotalPages p
       ∧ 0 ≤ TotalPages p ≤ 41
       ∧ (TotalPages p = 0 ↔ 41 = 0).
Proof.
  apply (CalculatePagination_pages_cover 3 0 41); [lia|by vm_compute].
Defined.

(** X12: for totals that are not negative, the page count grows with the
    total and shrinks as the page size grows. *)
Theorem CalculatePagination_monotone page1 page2 pageSize1 pageSize2 total1 total2 :
  0 ≤ total1 → total1 ≤ total2 → is_int total2 →
  1 ≤ pageSize1 → pageSize1 ≤ pageSize2 →
  ∃ p11 p12 p22,
    CalculatePagination page1 pageSize1 total1 = Done p11
    ∧ CalculatePagination page2 pageSize1 total2 = Done p12
    ∧ CalculatePagination page2 pageSize2 total2 = Done p22
    ∧ TotalPages p11 ≤ TotalPages p12
    ∧ TotalPages p22 ≤ TotalPages p12.
Proof.
  intros H1 H12 Hint Hps1 Hps12.
  assert (is_int total1) as Hint1 by (revert Hint; unfold is_int, int_min; lia).
  destruct (CalculatePagination_least page1 pageSize1 total1)
    as (p11 & Hp11 & Hs11 & Hc11); [lia|done|].
  destruct (CalculatePagination_least page2 pageSize1 total2)
    as (p12 & Hp12 & Hs12 & Hc12); [lia|done|].
  destruct (CalculatePagination_least page2 pageSize2 total2)
    as (p22 & Hp22 & Hs22 & Hc22); [lia|done|].
  assert (clamp_pageSize pageSize1 = pageSize1) as Hcl1
    by (unfold clamp_pageSize; case_decide; lia).
  assert (clamp_pageSize pageSize2 = pageSize2) as Hcl2
    by (unfold clamp_pageSize; case_decide; lia).
  rewrite Hs11, Hcl1 in Hc11. rewrite Hs12, Hcl1 in Hc12.
  rewrite Hs22, Hcl2 in Hc22.
  exists p11, p12, p22. split; [done|]. split; [done|]. split; [done|].
  assert (0 ≤ TotalPages p12) as Hnn by nia.
  split.
  - assert (pageSize1 * (TotalPages p11 - 1) < pageSize1 * TotalPages p12)
      as Hlt by lia.
    apply Z.mul_lt_mono_pos_l in Hlt; lia.
  - assert (pageSize1 * TotalPages p12 ≤ pageSize2 * TotalPages p12)
      by (apply Z.mul_le_mono_nonneg_r; lia).
    assert (pageSize2 * (TotalPages p22 - 1) < pageSize2 * TotalPages p12)
      as Hlt by lia.
    apply Z.mul_lt_mono_pos_l in Hlt; lia.
Qed.

Lemma CalculatePagination_monotone_witness :
  ∃ p11 p12 p22,
    CalculatePagination 1 10 95 = Done p11
    ∧ CalculatePagination 1 10 101 = Done p12
    ∧ CalculatePagination 1 25 101 = Done p22
    ∧ TotalPages p11 ≤ TotalPages p12
    ∧ TotalPages p22 ≤ TotalPages p12.
Proof.
  apply (CalculatePagination_monotone 1 1 10 25 95 101);
    [lia | lia | by vm_compute | lia | lia].
Defined.

(** X13: the result is stable: giving the page, page size and total of a
    returned Pagination back to CalculatePagination returns the same
    Pagination. *)
Theorem CalculatePagination_stable page pageSize total :
  is_int total →
  ∃ p, CalculatePagination page pageSize total = Done p
       ∧ CalculatePagination (Page p) (PageSize p) (Total p) = Done p.
Proof.
  intros Hint. rewrite CalculatePagination_exact by done.
  eexists. split; [done|]. simpl.
  rewrite CalculatePagination_exact by done.
  assert (clamp_page (clamp_page page) = clamp_page page) as ->
    by (unfold clamp_page; repeat case_decide; lia).
  assert (clamp_pageSize (clamp_pageSize pageSize) = clamp_pageSize pageSize)
    as -> by (unfold clamp_pageSize; repeat case_decide; lia).
  done.
Qed.

Lemma CalculatePagination_stable_witness :
  ∃ p, CalculatePagination (-3) 0 (-7) = Done p
       ∧ CalculatePagination (Page p) (PageSize p) (Total p) = Done p.
Proof. apply (CalculatePagination_stable (-3) 0 (-7)). by vm_compute. Defined.
End pagination.

(** * Further properties of the error values *)

Section error_values.
Local Set Warnings "-clear-no-such-hyp".
Implicit Types (s : store) (p : option loc) (l r : loc) (e : ResponseError).
Implicit Types (d : gmap string any) (key : string) (value : any).
Implicit Types (kvs : list (string * any)).

Lemma store_eta s r d :
  maps s !! r = Some d → {| errs := errs s; maps := <[r := d]> (maps s) |} = s.
Proof. intros Hd. destruct s as [es ms]. simpl in *. by rewrite insert_id. Qed.

(** A chain of [WithDetails] calls rewrites one map and nothing else. *)
Lemma WithDetails_chain_run s l e r d kvs :
  errs s !! l = Some e → Details e = Some r → maps s !! r = Some d →
  WithDetails_chain (Some l) kvs s
  = Ok (Some l) {| errs := errs s; maps := <[r := upserts d kvs]> (maps s) |}.
Proof.
  revert s d. induction kvs as [|[key value] kvs IH]; intros s d He Hr Hd.
  - simpl. unfold ret. by rewrite store_eta.
  - simpl. unfold bind. rewrite (WithDetails_run s l e r d) by done.
    rewrite (IH _ (<[key := value]> d)); simpl;
      [|done|done|by apply lookup_insert_eq].
    by rewrite insert_insert_eq.
Qed.

Lemma upserts_dom d kvs : dom (upserts d kvs) = dom d ∪ list_to_set kvs.*1.
Proof.
  revert d. induction kvs as [|[key value] kvs IH]; intros d; simpl.
  - set_solver.
  - unfold upserts in *. simpl. rewrite IH, dom_insert_L. set_solver.
Qed.

Lemma upserts_lookup_other d kvs k :
  k ∉ kvs.*1 → upserts d kvs !! k = d !! k.
Proof.
  revert d. induction kvs as [|[key value] kvs IH]; intros d Hk; [done|].
  unfold upserts in *. simpl in *.
  rewrite IH by set_solver. apply lookup_insert_ne. set_solver.
Qed.

Lemma upserts_snoc d kvs key value :
  upserts d (kvs ++ [(key, value)]) = <[key := value]> (upserts d kvs).
Proof. unfold upserts. by rewrite foldl_app. Qed.

Lemma NewResponseError_chain code message statusCode kvs s :
  ∃ l r s',
    (let* e := NewResponseError code message statusCode in
     WithDetails_chain e kvs) s = Ok (Some l) s'
    ∧ errs s !! l = None ∧ maps s !! r = None
    ∧ errs s' = <[l := {| Code := code; Message := message;
                          StatusCode := statusCode; Details := Some r |}]>
                (errs s)
    ∧ maps s' = <[r := upserts ∅ kvs]> (maps s).
Proof.
  unfold bind. rewrite NewResponseError_run.
  set (l := fresh (dom (errs s))). set (r := fresh (dom (maps s))).
  erewrite WithDetails_chain_run;
    [|by apply lookup_insert_eq|done|by apply lookup_insert_eq].
  exists l, r. eexists. split; [done|]. simpl.
  rewrite insert_insert_eq. repeat split; apply fresh_lookup_None.
Qed.

(** X1: the string an ErrorValue renders as is "[code] message", with the
    code and message it was constructed with, and no WithDetails call
    changes it: details never show in Error(). *)
Theorem Error_renders_code_and_message code message statusCode kvs s :
  ∃ l s',
    (let* e := NewResponseError code message statusCode in
     WithDetails_chain e kvs) s = Ok (Some l) s'
    ∧ ResponseError_Error (Some l) s'
      = Ok ("[" +:+ code +:+ "] " +:+ message) s'
    ∧ error_Error (error_ResponseError (Some l)) s'
      = Ok ("[" +:+ code +:+ "] " +:+ message) s'.
Proof.
  destruct (NewResponseError_chain code message statusCode kvs s)
    as (l & r & s' & Hrun & _ & _ & He & _).
  exists l, s'. split; [done|].
  assert (ResponseError_Error (Some l) s'
          = Ok ("[" +:+ code +:+ "] " +:+ message) s') as Hs; [|by split].
  unfold ResponseError_Error, bind, deref. by rewrite He, lookup_insert_eq.
Qed.

(** X2: nothing guards against nil. WithDetails and Error on a nil
    receiver, and DatabaseError on the nil error or on a nil pointer, panic
    with a nil dereference; every object of the store stays as it was. *)
Theorem nil_inputs_panic s key value :
  WithDetails None key value s = Panic nil_dereference s
  ∧ ResponseError_Error None s = Panic nil_dereference s
  ∧ (∃ s', DatabaseError error_nil s = Panic nil_dereference s'
           ∧ errs s ⊆ errs s' ∧ maps s ⊆ maps s')
  ∧ (∃ s', DatabaseError (error_ResponseError None) s
           = Panic nil_dereference s'
           ∧ errs s ⊆ errs s' ∧ maps s ⊆ maps s').
Proof.
  split; [done|]. split; [done|].
  split; (eexists; split; [done|]; simpl;
          split; apply insert_subseteq, fresh_lookup_None).
Qed.



(** X6: a constructed value shares nothing with the values that exist:
    its address is new, and building it and adding details to it leaves
    the struct and the details of every existing value as they were. *)
Theorem constructed_value_is_independent
    code message statusCode kvs s l0 e0 d0 :
  errs s !! l0 = Some e0 → details_of s (Some l0) = Some d0 →
  ∃ l s',
    (let* e := NewResponseError code message statusCode in
     WithDetails_chain e kvs) s = Ok (Some l) s'
    ∧ l ≠ l0
    ∧ errs s' !! l0 = Some e0
    ∧ details_of s' (Some l0) = Some d0
    ∧ details_of s' (Some l) = Some (upserts ∅ kvs).
Proof.
  intros He0 (l0' & e0' & r0 & [= <-] & He0' & Hr0 & Hd0)%details_of_Some.
  assert (e0' = e0) as -> by congruence.
  destruct (NewResponseError_chain code message statusCode kvs s)
    as (l & r & s' & Hrun & Hl & Hr & He & Hm).
  assert (l ≠ l0) by congruence. assert (r ≠ r0) by congruence.
  exists l, s'. split; [done|]. split; [done|].
  assert (errs s' !! l0 = Some e0) as He0s
    by (by rewrite He, lookup_insert_ne).
  split; [done|]. split.
  - eapply details_of_intro; [exact He0s|exact Hr0|].
    by rewrite Hm, lookup_insert_ne.
  - eapply details_of_intro; [by rewrite He, lookup_insert_eq|done|].
    by rewrite Hm, lookup_insert_eq.
Qed.

Lemma constructed_value_is_independent_witness :
  let s := final_store
             ((let* e := BadRequest "first" in
               WithDetails e "a" (Int 1)) empty_store) in
  ∃ l s',
    (let* e := NewResponseError "SECOND" "second" 418 in
     WithDetails_chain e [("a", Int 2); ("b", Int 3)]) s = Ok (Some l) s'
    ∧ l ≠ 1%positive
    ∧ errs s' !! 1%positive
      = Some {| Code := "BAD_REQUEST"; Message := "first"; StatusCode := 400;
                Details := Some 1%positive |}
    ∧ details_of s' (Some 1%positive) = Some {[ "a" := Int 1 ]}
    ∧ details_of s' (Some l) = Some (upserts ∅ [("a", Int 2); ("b", Int 3)]).
Proof.
  intros s.
  apply (constructed_value_is_independent "SECOND" "second" 418
           [("a", Int 2); ("b", Int 3)] s 1%positive); reflexivity.
Defined.

(** X7: WithDetails calls on different keys commute: either order leaves
    the same store. *)
Theorem WithDetails_commutes s p d k1 k2 v1 v2 :
  details_of s p = Some d → k1 ≠ k2 →
  ∃ s',
    (let* e := WithDetails p k1 v1 in WithDetails e k2 v2) s = Ok p s'
    ∧ (let* e := WithDetails p k2 v2 in WithDetails e k1 v1) s = Ok p s'
    ∧ details_of s' p = Some (<[k1 := v1]> (<[k2 := v2]> d)).
Proof.
  intros (l & e & r & -> & He & Hr & Hd)%details_of_Some Hk.
  eexists. unfold bind.
  rewrite !(WithDetails_run s l e r d) by done.
  erewrite !WithDetails_run;
    [|done|done|by apply lookup_insert_eq|done|done|by apply lookup_insert_eq].
  simpl. rewrite !insert_insert_eq.
  rewrite (insert_insert_ne d k2 k1) by done.
  split; [done|]. split; [done|].
  eapply details_of_intro; [exact He|exact Hr|]. apply lookup_insert_eq.
Qed.

Lemma WithDetails_commutes_witness :
  let s := final_store (ValidationError "bad" empty_store) in
  ∃ s',
    (let* e := WithDetails (Some 1%positive) "email" (Str "required") in
     WithDetails e "age" (Int 18)) s = Ok (Some 1%positive) s'
    ∧ (let* e := WithDetails (Some 1%positive) "age" (Int 18) in
       WithDetails e "email" (Str "required")) s = Ok (Some 1%positive) s'
    ∧ details_of s' (Some 1%positive)
      = Some (<["email" := Str "required"]> (<["age" := Int 18]> ∅)).
Proof.
  intros s.
  apply (WithDetails_commutes s (Some 1%positive) ∅ "email" "age");
    [reflexivity|done].
Defined.

(** X8: after any chain of WithDetails calls the mapping holds the keys it
    had and the keys written, and no others; a key that was not written
    keeps its value, and the value of a written key is that of its last
    write. *)
Theorem WithDetails_chain_keys s p d kvs :
  details_of s p = Some d →
  ∃ s' d',
    WithDetails_chain p kvs s = Ok p s'
    ∧ details_of s' p = Some d'
    ∧ dom d' = dom d ∪ list_to_set kvs.*1
    ∧ (∀ k, k ∉ kvs.*1 → d' !! k = d !! k)
    ∧ (∀ kvs1 kvs2 k v,
         kvs = kvs1 ++ (k, v) :: kvs2 → k ∉ kvs2.*1 → d' !! k = Some v).
Proof.
  intros (l & e & r & -> & He & Hr & Hd)%details_of_Some.
  exists {| errs := errs s; maps := <[r := upserts d kvs]> (maps s) |},
         (upserts d kvs).
  split; [by eapply WithDetails_chain_run|]. split.
  { eapply details_of_intro; [exact He|exact Hr|]. apply lookup_insert_eq. }
  split; [apply upserts_dom|]. split; [apply upserts_lookup_other|].
  intros kvs1 kvs2 k v -> Hk. unfold upserts. rewrite foldl_app. simpl.
  fold (upserts (<[k := v]> (foldl (λ d kv, <[kv.1 := kv.2]> d) d kvs1)) kvs2).
  rewrite upserts_lookup_other by done. apply lookup_insert_eq.
Qed.

Lemma WithDetails_chain_keys_witness :
  let s := final_store (Conflict "taken" empty_store) in
  let kvs := [("a", Int 1); ("b", Int 2); ("a", Int 3)] in
  ∃ s' d',
    WithDetails_chain (Some 1%positive) kvs s = Ok (Some 1%positive) s'
    ∧ details_of s' (Some 1%positive) = Some d'
    ∧ d' !! "a" = Some (Int 3) ∧ d' !! "b" = Some (Int 2)
    ∧ d' !! "c" = None.
Proof.
  intros s kvs.
  destruct (WithDetails_chain_keys s (Some 1%positive) ∅ kvs)
    as (s' & d' & Hrun & Hd & _ & Hother & Hlast); [reflexivity|].
  exists s', d'. split; [exact Hrun|]. split; [exact Hd|].
  split; [apply (Hlast [("a", Int 1); ("b", Int 2)] [] "a" (Int 3));
          [reflexivity|apply not_elem_of_nil]|].
  split; [apply (Hlast [("a", Int 1)] [("a", Int 3)] "b" (Int 2));
          [reflexivity|]|].
  - simpl. intros [H|H]%elem_of_cons; [discriminate H|].
    by apply not_elem_of_nil in H.
  - rewrite Hother; [reflexivity|]. simpl.
    intros H. repeat (apply elem_of_cons in H as [H|H]; [discriminate H|]).
    by apply not_elem_of_nil in H.
Defined.
End error_values.

(** * Further properties of the constructors and the emitters *)

Section responses.
Local Set Warnings "-clear-no-such-hyp".
Implicit Types (c : Context) (s : store) (err : error) (data : any).
Implicit Types (l : loc) (e : ResponseError) (d : gmap string any).
Implicit Types (kvs : list (string * any)).

(** X3: building an error, adding details and emitting it writes what was
    built: one JSON write whose status is the status given to the
    constructor (whatever it is: nothing is validated) and whose body
    carries the code, the message and all the details added; for a named
    constructor these are the status, code and message of that
    constructor. *)
Theorem ErrorResponse_of_constructed c kvs s :
  (∀ code message statusCode, ∃ s',
      (let* e := NewResponseError code message statusCode in
       let* e' := WithDetails_chain e kvs in
       ErrorResponse c (error_ResponseError e')) s
      = Ok (c ++ [JSON statusCode
                    (error_body code message (Map (Some (upserts ∅ kvs))))])
           s')
  ∧ (∀ f, ∃ s',
      (let* e := run_factory f in
       let* e' := WithDetails_chain e kvs in
       ErrorResponse c (error_ResponseError e')) s
      = Ok (c ++ [JSON (spec_table f).1.2
                    (error_body (spec_table f).1.1 (spec_table f).2
                       (Map (Some (upserts ∅ kvs))))])
           s').
Proof.
  assert (∀ code message statusCode, ∃ s',
      (let* e := NewResponseError code message statusCode in
       let* e' := WithDetails_chain e kvs in
       ErrorResponse c (error_ResponseError e')) s
      = Ok (c ++ [JSON statusCode
                    (error_body code message (Map (Some (upserts ∅ kvs))))])
           s') as Hnew.
  { intros code message statusCode.
    destruct (NewResponseError_chain code message statusCode kvs s)
      as (l & r & s' & Hrun & _ & _ & He & Hm).
    exists s'. unfold bind in *.
    destruct (NewResponseError code message statusCode s) as [e1 s1|];
      [|done]. rewrite Hrun.
    apply (ErrorResponse_pointer c s' l
             {| Code := code; Message := message; StatusCode := statusCode;
                Details := Some r |}).
    - by rewrite He, lookup_insert_eq.
    - unfold map_contents. simpl. by rewrite Hm, lookup_insert_eq. }
  split; [done|]. intros f. rewrite run_factory_NewResponseError. apply Hnew.
Qed.

(** X4: wrapping a failure with DatabaseError before emitting it gives
    status 500 with code DATABASE_ERROR, message "Database operation
    failed" and the failure's message under details.error. *)
Theorem ErrorResponse_of_DatabaseError c err msg s :
  error_Error err s = Ok msg s →
  ∃ s',
    (let* e := DatabaseError err in
     ErrorResponse c (error_ResponseError e)) s
    = Ok (c ++ [JSON 500
                  (error_body "DATABASE_ERROR" "Database operation failed"
                     (Map (Some {[ "error" := Str msg ]})))]) s'.
Proof.
  intros Herr.
  destruct (DatabaseError_details err msg s Herr)
    as (l & r & e & s' & Hrun & _ & _ & He & Hm & Hrow & Hr & Hd).
  exists s'. unfold bind. rewrite Hrun.
  injection Hrow as <- <- <-.
  apply ErrorResponse_pointer; [by rewrite He, lookup_insert_eq|].
  unfold map_contents. by rewrite Hr, Hm, lookup_insert_eq.
Qed.

Lemma ErrorResponse_of_DatabaseError_witness :
  let s := final_store (NotFound "User" empty_store) in
  ∃ s',
    (let* e := DatabaseError (error_ResponseError (Some 1%positive)) in
     ErrorResponse [] (error_ResponseError e)) s
    = Ok ([] ++ [JSON 500
                   (error_body "DATABASE_ERROR" "Database operation failed"
                      (Map (Some {[ "error"
                                    := Str "[NOT_FOUND] User not found" ]})))])
         s'.
Proof.
  intros s.
  apply (ErrorResponse_of_DatabaseError []
           (error_ResponseError (Some 1%positive))
           "[NOT_FOUND] User not found" s).
  reflexivity.
Defined.

(** X14: every named constructor taking strings gives a client or server
    error status (400 to 599), and the code fixes the status: two
    constructors that give the same code give the same status. *)
Theorem factory_code_fixes_status f g s1 s2 :
  ∃ l1 e1 s1' l2 e2 s2',
    run_factory f s1 = Ok (Some l1) s1' ∧ errs s1' !! l1 = Some e1
    ∧ run_factory g s2 = Ok (Some l2) s2' ∧ errs s2' !! l2 = Some e2
    ∧ 400 ≤ StatusCode e1 < 600
    ∧ (Code e1 = Code e2 → StatusCode e1 = StatusCode e2).
Proof.
  destruct (run_factory_details f s1)
    as (l1 & r1 & e1 & s1' & Hrun1 & _ & _ & He1 & _ & Hrow1 & _).
  destruct (run_factory_details g s2)
    as (l2 & r2 & e2 & s2' & Hrun2 & _ & _ & He2 & _ & Hrow2 & _).
  exists l1, e1, s1', l2, e2, s2'.
  split; [done|]. split; [by rewrite He1, lookup_insert_eq|].
  split; [done|]. split; [by rewrite He2, lookup_insert_eq|].
  destruct e1 as [c1 m1 st1 d1], e2 as [c2 m2 st2 d2]. simpl in *.
  destruct f; injection Hrow1 as -> -> ->; (split; [lia|]);
    destruct g; injection Hrow2 as -> -> ->; intros Hc;
    first [reflexivity | discriminate Hc].
Qed.

Lemma factory_code_fixes_status_witness :
  ∃ l1 e1 s1' l2 e2 s2',
    run_factory (call_Conflict "taken") empty_store = Ok (Some l1) s1'
    ∧ errs s1' !! l1 = Some e1
    ∧ run_factory (call_VersionExistsError "1.2") empty_store
      = Ok (Some l2) s2'
    ∧ errs s2' !! l2 = Some e2
    ∧ Code e1 = Code e2 ∧ StatusCode e1 = StatusCode e2.
Proof.
  destruct (factory_code_fixes_status (call_Conflict "taken")
              (call_VersionExistsError "1.2") empty_store empty_store)
    as (l1 & e1 & s1' & l2 & e2 & s2' & H1 & He1 & H2 & He2 & _ & Hst).
  exists l1, e1, s1', l2, e2, s2'.
  split; [exact H1|]. split; [exact He1|]. split; [exact H2|].
  split; [exact He2|].
  assert (Code e1 = Code e2) as Hc.
  { vm_compute in H1, H2. injection H1 as <- <-. injection H2 as <- <-.
    vm_compute in He1, He2. injection He1 as <-. injection He2 as <-.
    reflexivity. }
  split; [exact Hc|exact (Hst Hc)].
Defined.

(** X15: three of the declared codes are never produced: no named
    constructor gives INVALID_BODY, ACCOUNT_LOCKED or UNAUTHORIZED_ERROR.
    UnauthorizedError gives code UNAUTHORIZED and behaves exactly as
    Unauthorized, and VersionExistsError as Conflict on the formatted
    message. *)
Theorem unused_codes_never_produced f s :
  (∃ l e s',
      run_factory f s = Ok (Some l) s' ∧ errs s' !! l = Some e
      ∧ Code e ≠ ErrCodeInvalidBody
      ∧ Code e ≠ ErrUserAccountLocked
      ∧ Code e ≠ ErrUnauthorizedError)
  ∧ (∀ message, UnauthorizedError message s = Unauthorized message s)
  ∧ (∀ v, VersionExistsError v s
          = Conflict ("Version " +:+ v +:+ " already exists") s).
Proof.
  split; [|by split].
  destruct (run_factory_details f s)
    as (l & r & e & s' & Hrun & _ & _ & He & _ & Hrow & _).
  exists l, e, s'. split; [done|]. split; [by rewrite He, lookup_insert_eq|].
  destruct e as [c m st d]. simpl in *.
  destruct f; injection Hrow as -> -> ->; by repeat split.
Qed.

(** X9: on the wire a success response has "success": true and never an
    "error" entry; "data" is present exactly when the data is not nil and
    "message" exactly when the message is not empty; there is no other
    entry. *)
Theorem SuccessResponse_wire c statusCode data message s :
  ∃ obj o,
    SuccessResponse c statusCode data message s
    = Ok (c ++ [JSON statusCode obj]) s
    ∧ payload_json obj = Map (Some o)
    ∧ o !! "success" = Some (Bool true)
    ∧ o !! "error" = None
    ∧ o !! "data" = match data with Nil => None | _ => Some data end
    ∧ o !! "message"
      = match message with "" => None | _ => Some (Str message) end
    ∧ dom o ⊆ {[ "success"; "data"; "message" ]}.
Proof.
  eexists _, _. split; [done|]. split; [done|].
  unfold omitempty_any, omitempty_string; simpl.
  destruct data, message; simpl;
    (split; [done|]); (split; [done|]); (split; [done|]); (split; [done|]);
    rewrite ?dom_insert_L, ?dom_singleton_L; set_solver.
Qed.

(** X10: on the wire a list response always has "success": true and
    "data", also when the data is nil (it is then null, not left out), and
    "pagination" exactly when a pagination is given; the pagination object
    has the four integer entries page, page_size, total and total_pages
    and no other. *)
Theorem ListResponse_wire c data pagination s :
  (∃ obj o,
      ListResponseWithPagination c data pagination s
      = Ok (c ++ [JSON 200 obj]) s
      ∧ payload_json obj = Map (Some o)
      ∧ o !! "data" = Some data
      ∧ dom o = {[ "success"; "data" ]}
                ∪ match pagination with
                  | Some _ => {[ "pagination" ]}
                  | None => ∅
                  end)
  ∧ (∀ p, ∃ o,
      Pagination_json p = Map (Some o)
      ∧ dom o = {[ "page"; "page_size"; "total"; "total_pages" ]}
      ∧ o !! "page" = Some (Int (Page p))
      ∧ o !! "page_size" = Some (Int (PageSize p))
      ∧ o !! "total" = Some (Int (Total p))
      ∧ o !! "total_pages" = Some (Int (TotalPages p))).
Proof.
  split.
  - eexists _, _. split; [done|]. split; [done|]. simpl.
    destruct pagination; simpl; (split; [done|]);
      rewrite ?dom_insert_L, ?dom_singleton_L; set_solver.
  - intros p. eexists. split; [done|].
    split; [rewrite ?dom_insert_L, ?dom_singleton_L; set_solver|].
    by repeat split.
Qed.
End responses.
